(** * Compiler-behaviour probes of LTLA/godbolt-tests, embedded in Rocq

    The three source files are stand-alone snippets:
    - [src/nd_offset.cpp]: the variadic [nd_offset] helper and the column
      [sum] loop built on it;
    - [src/devirtualize.cpp]: a Parent/Child pair of class hierarchies and the
      driver [foo];
    - [src/devirtualize_class.cpp]: two snippets (the second one starts again
      at [#include <memory>]) that put a templated wrapper layer on top of the
      Parent/Child hierarchy.

    Every C++ function is translated into a Rocq function of the same name.
    Machine integers are values of [Z] together with the arithmetic of their
    C++ type: unsigned arithmetic wraps modulo [2 ^ w], signed [int]
    arithmetic has no value on overflow. *)

From Stdlib Require Import ZArith List Lia Bool PrimFloat.
From Equations Require Import Equations.
From Equations.Prop Require Import Logic.
Import ListNotations.

Local Open Scope Z_scope.

(** ** Outcomes of a C++ evaluation *)

Module Cxx.

(** An expression either has a value, or has undefined behaviour (signed
    overflow, a read outside an array, a null handle dereferenced), or is
    ill-formed because no function or template instantiation matches the
    call. *)
Inductive result (A : Type) : Type :=
| Ok (a : A)
| Undefined
| IllFormed.

Arguments Ok {A} a.
Arguments Undefined {A}.
Arguments IllFormed {A}.

Definition bind {A B : Type} (m : result A) (k : A -> result B) : result B :=
  match m with
  | Ok a => k a
  | Undefined => Undefined
  | IllFormed => IllFormed
  end.

Definition is_ok {A : Type} (m : result A) : bool :=
  match m with
  | Ok _ => true
  | _ => false
  end.

(** [int] on the targets named in the sources (x86-64 GCC, armv8-a and
    x86-64 clang): 32 bits, two's complement. *)
Definition INT_MIN : Z := -2147483648.
Definition INT_MAX : Z := 2147483647.

Definition in_int (v : Z) : Prop := INT_MIN <= v <= INT_MAX.

Definition in_intb (v : Z) : bool := (INT_MIN <=? v) && (v <=? INT_MAX).

(** [a + b] on two [int]s: the mathematical sum when [int] can hold it,
    undefined behaviour otherwise. *)
Definition int_add (a b : Z) : result Z :=
  if in_intb (a + b) then Ok (a + b) else Undefined.

(** [*p] on a [std::shared_ptr]: the handle may be empty. *)
Definition deref {A : Type} (p : option A) : result A :=
  match p with
  | Some a => Ok a
  | None => Undefined
  end.

End Cxx.

Import Cxx.

Declare Scope cxx_scope.
Delimit Scope cxx_scope with cxx.
Notation "x <- m ;; k" := (bind m (fun x => k))
  (at level 61, m at next level, right associativity) : cxx_scope.
Local Open Scope cxx_scope.

(** ** [src/nd_offset.cpp] *)

Module NdOffset.

Section Size.

(** Bit width of the unsigned result type [Size_]; the experiment uses
    [std::size_t], which is at least as wide as [int], so its operands are
    not promoted and [+] and [*] are those of [Size_]. *)
Variable w : Z.

(** Conversion of an integer of any type to [Size_] (implicit at a
    call of [nd_offset_internal<Size_>], [static_cast<Size_>] in
    [nd_offset]): the value modulo [2 ^ w]. *)
Definition to_Size (v : Z) : Z := v mod 2 ^ w.

(** [+] and [*] on two [Size_] operands. *)
Definition Size_add (a b : Z) : Z := (a + b) mod 2 ^ w.
Definition Size_mul (a b : Z) : Z := (a * b) mod 2 ^ w.

(** [nd_offset_internal<Size_>(extent, pos, more_args...)].  Both
    overloads take [extent] and [pos] as [Size_], so these two arguments
    are converted at the call; the pack [more_args] keeps the callers'
    types until the recursive call converts its first two elements.
    With an empty pack the two-argument overload is chosen.  A pack of
    one element leads to a call with a single argument, which no overload
    accepts. *)
Fixpoint nd_offset_internal (extent pos : Z) (more_args : list Z)
  {struct more_args} : result Z :=
  let extent := to_Size extent in
  let pos := to_Size pos in
  match more_args with
  | [] => Ok (Size_mul extent pos)
  | [_] => IllFormed
  | extent' :: pos' :: more_args' =>
      inner <- nd_offset_internal extent' pos' more_args' ;;
      Ok (Size_mul (Size_add pos inner) extent)
  end.

(** [nd_offset<Size_>(x1, extent1, x2, remaining...)].  The template gives
    [x1] and [extent1] one type, [First_]; the two arguments here are the
    values of such a pair, and a call whose first two arguments have
    different types, for which [First_] cannot be deduced, is outside this
    function. *)
Definition nd_offset (x1 extent1 x2 : Z) (remaining : list Z) : result Z :=
  inner <- nd_offset_internal extent1 x2 remaining ;;
  Ok (Size_add (to_Size x1) inner).

End Size.

(** [std::size_t] on the 64-bit targets of the experiment. *)
Definition size_t_bits : Z := 64.

Section Sum.

(** The element type [double] with its zero and its addition.  The loop
    only ever adds the next element to the accumulator, so no law of the
    addition is needed and the operation is kept as a parameter; it is
    instantiated with IEEE binary64 below. *)
Variable double : Type.
Variable dzero : double.
Variable dadd : double -> double -> double.

(** [mat[i]] for [const double* mat] pointing to an array whose elements
    are the list [mat]; [i] is a [std::size_t]. *)
Definition index (mat : list double) (i : Z) : result double :=
  match nth_error mat (Z.to_nat i) with
  | Some elmt => Ok elmt
  | None => Undefined
  end.

(** One trip through the loop of [sum]: the body followed by [++r]. *)
Definition sum_body (mat : list double) (NC c r : Z) (val : double)
  : result (Z * double) :=
  i <- nd_offset size_t_bits c NC r [] ;;
  elmt <- index mat i ;;
  let val := dadd val elmt in
  r' <- int_add r 1 ;;
  Ok (r', val).

(** [for (int r = ...; r < NR; ++r) { ... }] from the current [r] and
    accumulator [val] on. *)
Equations? sum_loop (mat : list double) (NR NC c r : Z) (val : double)
  : result double by wf (Z.to_nat (NR - r)) lt :=
  sum_loop mat NR NC c r val with Z_lt_dec r NR := {
    | right _ => Ok val
    | left _ with inspect (sum_body mat NC c r val) := {
        | exist _ (Ok (r', val')) Hbody => sum_loop mat NR NC c r' val'
        | exist _ Undefined _ => Undefined
        | exist _ IllFormed _ => IllFormed } }.
Proof.
  (* the only way for the body to finish is with [r' = r + 1] *)
  unfold sum_body, nd_offset, nd_offset_internal, bind, index, int_add in Hbody.
  destruct (nth_error mat _); [| discriminate].
  destruct (in_intb (r + 1)); [| discriminate].
  injection Hbody as <- _. lia.
Qed.

(** [double sum(const double* mat, int NR, int NC, int r0, int c)]. *)
Definition sum (mat : list double) (NR NC r0 c : Z) : result double :=
  sum_loop mat NR NC c r0 dzero.

End Sum.

End NdOffset.

(** ** [src/devirtualize.cpp]

    A class becomes a module: its data members are the fields of the record
    [t], [new] is its constructor, and a member function takes the receiver
    [this] first.  [get] is not a [const] member, so it also hands back the
    receiver as it is after the call.  An object owned through a
    [std::unique_ptr] to an abstract class is an object of one of the [final]
    classes of the snippet; a virtual call dispatches on which one it is. *)

Module Devirtualize.

Module AChild.
Record t : Type := new { payload : Z }.

Definition get (this : t) : result Z * t :=
  (Ok (payload this), this).
End AChild.

Module BChild.
Record t : Type := new { payload : Z }.

Definition get (this : t) : result Z * t :=
  (int_add (payload this) 20, this).
End BChild.

Module BaseChild.
Inductive t : Type :=
| of_AChild (child : AChild.t)
| of_BChild (child : BChild.t).

Definition get (this : t) : result Z * t :=
  match this with
  | of_AChild child => let (v, child') := AChild.get child in (v, of_AChild child')
  | of_BChild child => let (v, child') := BChild.get child in (v, of_BChild child')
  end.
End BaseChild.

Module AParent.
Record t : Type := new { my_payload : Z }.

Definition create (this : t) : BaseChild.t :=
  BaseChild.of_AChild (AChild.new (my_payload this)).
End AParent.

Module BParent.
Record t : Type := new { my_payload : Z }.

(** As in the source, line 74: [std::make_unique<AChild>(my_payload)]. *)
Definition create (this : t) : BaseChild.t :=
  BaseChild.of_AChild (AChild.new (my_payload this)).
End BParent.

Module BaseParent.
Inductive t : Type :=
| of_AParent (parent : AParent.t)
| of_BParent (parent : BParent.t).

Definition create (this : t) : BaseChild.t :=
  match this with
  | of_AParent parent => AParent.create parent
  | of_BParent parent => BParent.create parent
  end.
End BaseParent.

(** [int foo(const AParent& ap)]. *)
Definition foo (ap : AParent.t) : result Z :=
  let value := AParent.create ap in
  fst (BaseChild.get value).

End Devirtualize.

(** ** [src/devirtualize_class.cpp], first snippet (lines 19-129) *)

Module DevirtualizeClass.

Module ACoreChild.
Record t : Type := new { payload : Z }.

Definition get (this : t) : result Z * t :=
  (Ok (payload this), this).
End ACoreChild.

Module BCoreChild.
Record t : Type := new { payload : Z }.

Definition get (this : t) : result Z * t :=
  (int_add (payload this) 20, this).
End BCoreChild.

Module BaseCoreChild.
Inductive t : Type :=
| of_ACoreChild (child : ACoreChild.t)
| of_BCoreChild (child : BCoreChild.t).

Definition get (this : t) : result Z * t :=
  match this with
  | of_ACoreChild child =>
      let (v, child') := ACoreChild.get child in (v, of_ACoreChild child')
  | of_BCoreChild child =>
      let (v, child') := BCoreChild.get child in (v, of_BCoreChild child')
  end.
End BaseCoreChild.

Module ACoreParent.
Record t : Type := new { my_payload : Z }.

Definition create (this : t) : BaseCoreChild.t :=
  BaseCoreChild.of_ACoreChild (ACoreChild.new (my_payload this)).
End ACoreParent.

Module BCoreParent.
Record t : Type := new { my_payload : Z }.

Definition create (this : t) : BaseCoreChild.t :=
  BaseCoreChild.of_BCoreChild (BCoreChild.new (my_payload this)).
End BCoreParent.

Module BaseCoreParent.
Inductive t : Type :=
| of_ACoreParent (parent : ACoreParent.t)
| of_BCoreParent (parent : BCoreParent.t).

Definition create (this : t) : BaseCoreChild.t :=
  match this with
  | of_ACoreParent parent => ACoreParent.create parent
  | of_BCoreParent parent => BCoreParent.create parent
  end.
End BaseCoreParent.

(** What the templates [ActualWrapperChild<Core_>] and
    [ActualWrapperParent<Core_>] ask of their argument: the call
    [core_parent.create()] on a [const Core_&], resolved on the static type
    [Core_]. *)
Class Core (Core_ : Type) : Type := { create : Core_ -> BaseCoreChild.t }.

#[global] Instance Core_BaseCoreParent : Core BaseCoreParent.t :=
  { create := BaseCoreParent.create }.
#[global] Instance Core_ACoreParent : Core ACoreParent.t :=
  { create := ACoreParent.create }.
#[global] Instance Core_BCoreParent : Core BCoreParent.t :=
  { create := BCoreParent.create }.

Module ActualWrapperChild.
(** [std::unique_ptr<BaseCoreChild> my_core_child]. *)
Record t (Core_ : Type) : Type := mk { my_core_child : BaseCoreChild.t }.
Arguments mk {Core_} my_core_child.
Arguments my_core_child {Core_} this : rename.

Definition new {Core_ : Type} `{Core Core_} (core_parent : Core_) : t Core_ :=
  mk (create core_parent).

Definition wrapped_get {Core_ : Type} (this : t Core_) : result Z * t Core_ :=
  let (v, child') := BaseCoreChild.get (my_core_child this) in (v, mk child').
End ActualWrapperChild.

Module BaseWrapperChild.
Inductive t : Type :=
| of_Base (child : ActualWrapperChild.t BaseCoreParent.t)
| of_A (child : ActualWrapperChild.t ACoreParent.t)
| of_B (child : ActualWrapperChild.t BCoreParent.t).

Definition wrapped_get (this : t) : result Z * t :=
  match this with
  | of_Base child =>
      let (v, child') := ActualWrapperChild.wrapped_get child in (v, of_Base child')
  | of_A child =>
      let (v, child') := ActualWrapperChild.wrapped_get child in (v, of_A child')
  | of_B child =>
      let (v, child') := ActualWrapperChild.wrapped_get child in (v, of_B child')
  end.
End BaseWrapperChild.

Module ActualWrapperParent.
(** [std::shared_ptr<Core_> my_core_parent]; [None] is the empty handle. *)
Record t (Core_ : Type) : Type := new { my_core_parent : option Core_ }.
Arguments new {Core_} my_core_parent.
Arguments my_core_parent {Core_} this : rename.

Definition initialize {Core_ : Type} `{Core Core_} (this : t Core_)
  : result (ActualWrapperChild.t Core_) :=
  core_parent <- deref (my_core_parent this) ;;
  Ok (ActualWrapperChild.new core_parent).
End ActualWrapperParent.

Module BaseWrapperParent.
Inductive t : Type :=
| of_Base (parent : ActualWrapperParent.t BaseCoreParent.t)
| of_A (parent : ActualWrapperParent.t ACoreParent.t)
| of_B (parent : ActualWrapperParent.t BCoreParent.t).

Definition initialize (this : t) : result BaseWrapperChild.t :=
  match this with
  | of_Base parent =>
      child <- ActualWrapperParent.initialize parent ;; Ok (BaseWrapperChild.of_Base child)
  | of_A parent =>
      child <- ActualWrapperParent.initialize parent ;; Ok (BaseWrapperChild.of_A child)
  | of_B parent =>
      child <- ActualWrapperParent.initialize parent ;; Ok (BaseWrapperChild.of_B child)
  end.
End BaseWrapperParent.

(** [int foo(const BaseWrapperParent& wparent)]. *)
Definition foo (wparent : BaseWrapperParent.t) : result Z :=
  wchild <- BaseWrapperParent.initialize wparent ;;
  fst (BaseWrapperChild.wrapped_get wchild).

(** [int bar(std::shared_ptr<BaseCoreParent> base,
             std::shared_ptr<ACoreParent> abase,
             std::shared_ptr<BCoreParent> bbase)]. *)
Definition bar (base : option BaseCoreParent.t) (abase : option ACoreParent.t)
  (bbase : option BCoreParent.t) : result Z :=
  let parent := ActualWrapperParent.new base in
  let aparent := ActualWrapperParent.new abase in
  let bparent := ActualWrapperParent.new bbase in
  x <- foo (BaseWrapperParent.of_Base parent) ;;
  y <- foo (BaseWrapperParent.of_A aparent) ;;
  xy <- int_add x y ;;
  z <- foo (BaseWrapperParent.of_B bparent) ;;
  int_add xy z.

End DevirtualizeClass.

(** ** [src/devirtualize_class.cpp], second snippet (lines 138-257):
       forced devirtualization through [create_exact] *)

Module DevirtualizeClassExact.

Module ACoreChild.
Record t : Type := new { payload : Z }.

Definition get (this : t) : result Z * t :=
  (Ok (payload this), this).
End ACoreChild.

Module BCoreChild.
Record t : Type := new { payload : Z }.

Definition get (this : t) : result Z * t :=
  (int_add (payload this) 20, this).
End BCoreChild.

Module BaseCoreChild.
Inductive t : Type :=
| of_ACoreChild (child : ACoreChild.t)
| of_BCoreChild (child : BCoreChild.t).

Definition get (this : t) : result Z * t :=
  match this with
  | of_ACoreChild child =>
      let (v, child') := ACoreChild.get child in (v, of_ACoreChild child')
  | of_BCoreChild child =>
      let (v, child') := BCoreChild.get child in (v, of_BCoreChild child')
  end.
End BaseCoreChild.

Module ACoreParent.
Record t : Type := new { my_payload : Z }.

(** Returns [std::unique_ptr<ACoreChild>]. *)
Definition create_exact (this : t) : ACoreChild.t :=
  ACoreChild.new (my_payload this).

(** [return create_exact();], converted to [std::unique_ptr<BaseCoreChild>]. *)
Definition create (this : t) : BaseCoreChild.t :=
  BaseCoreChild.of_ACoreChild (create_exact this).
End ACoreParent.

Module BCoreParent.
Record t : Type := new { my_payload : Z }.

(** Returns [std::unique_ptr<BCoreChild>]. *)
Definition create_exact (this : t) : BCoreChild.t :=
  BCoreChild.new (my_payload this).

Definition create (this : t) : BaseCoreChild.t :=
  BaseCoreChild.of_BCoreChild (create_exact this).
End BCoreParent.

Module BaseCoreParent.
Inductive t : Type :=
| of_ACoreParent (parent : ACoreParent.t)
| of_BCoreParent (parent : BCoreParent.t).

(** The virtual [create()]. *)
Definition create (this : t) : BaseCoreChild.t :=
  match this with
  | of_ACoreParent parent => ACoreParent.create parent
  | of_BCoreParent parent => BCoreParent.create parent
  end.

(** The non-virtual [create_exact()] of the base class, which the derived
    classes hide with their own: [{ return create(); }]. *)
Definition create_exact (this : t) : BaseCoreChild.t :=
  create this.
End BaseCoreParent.

(** What the two wrapper templates ask of [Core_] in this snippet:
    - [exact_child]: the class pointed to by
      [decltype(std::declval<Core_>().create_exact())], the declared type of
      [my_core_child];
    - [create_exact]: the call [core_parent.create_exact()] on the static
      type [Core_];
    - [get]: the call [my_core_child->get()] on that pointer type;
    - [to_base]: the conversion of [std::shared_ptr<Core_>] to
      [std::shared_ptr<BaseCoreParent>] in the constructor of
      [ActualWrapperParent<Core_>] (line 239 initialises the member declared
      on line 244);
    - [from_base]: the binding of the constructor parameter [const Core_&]
      of [ActualWrapperChild<Core_>] to [*my_core_parent], an lvalue of type
      [BaseCoreParent] (line 241).  C++ converts a derived class to its base
      implicitly and never the base to a derived class, so the binding exists
      for [Core_ = BaseCoreParent] only. *)
Class Core (Core_ : Type) : Type := {
  exact_child : Type;
  create_exact : Core_ -> exact_child;
  get : exact_child -> result Z * exact_child;
  to_base : Core_ -> BaseCoreParent.t;
  from_base : result (BaseCoreParent.t -> Core_)
}.

#[global] Instance Core_BaseCoreParent : Core BaseCoreParent.t := {
  exact_child := BaseCoreChild.t;
  create_exact := BaseCoreParent.create_exact;
  get := BaseCoreChild.get;
  to_base := fun core => core;
  from_base := Ok (fun core_parent => core_parent)
}.

#[global] Instance Core_ACoreParent : Core ACoreParent.t := {
  exact_child := ACoreChild.t;
  create_exact := ACoreParent.create_exact;
  get := ACoreChild.get;
  to_base := BaseCoreParent.of_ACoreParent;
  from_base := IllFormed
}.

#[global] Instance Core_BCoreParent : Core BCoreParent.t := {
  exact_child := BCoreChild.t;
  create_exact := BCoreParent.create_exact;
  get := BCoreChild.get;
  to_base := BaseCoreParent.of_BCoreParent;
  from_base := IllFormed
}.

Module ActualWrapperChild.
(** [decltype(std::declval<Core_>().create_exact()) my_core_child]. *)
Record t (Core_ : Type) `{Core Core_} : Type := mk { my_core_child : exact_child }.
Arguments mk {Core_ _} my_core_child.
Arguments my_core_child {Core_ _} this : rename.

Definition new {Core_ : Type} `{Core Core_} (core_parent : Core_) : t Core_ :=
  mk (create_exact core_parent).

Definition wrapped_get {Core_ : Type} `{Core Core_} (this : t Core_)
  : result Z * t Core_ :=
  let (v, child') := get (my_core_child this) in (v, mk child').
End ActualWrapperChild.

Module BaseWrapperChild.
Inductive t : Type :=
| of_Base (child : ActualWrapperChild.t BaseCoreParent.t)
| of_A (child : ActualWrapperChild.t ACoreParent.t)
| of_B (child : ActualWrapperChild.t BCoreParent.t).

Definition wrapped_get (this : t) : result Z * t :=
  match this with
  | of_Base child =>
      let (v, child') := ActualWrapperChild.wrapped_get child in (v, of_Base child')
  | of_A child =>
      let (v, child') := ActualWrapperChild.wrapped_get child in (v, of_A child')
  | of_B child =>
      let (v, child') := ActualWrapperChild.wrapped_get child in (v, of_B child')
  end.
End BaseWrapperChild.

Module ActualWrapperParent.
(** [std::shared_ptr<BaseCoreParent> my_core_parent] (line 244), whatever
    [Core_] is; [None] is the empty handle. *)
Record t (Core_ : Type) : Type := mk { my_core_parent : option BaseCoreParent.t }.
Arguments mk {Core_} my_core_parent.
Arguments my_core_parent {Core_} this : rename.

(** [ActualWrapperParent(std::shared_ptr<Core_> core)]. *)
Definition new {Core_ : Type} `{Core Core_} (core : option Core_) : t Core_ :=
  mk (option_map to_base core).

(** [std::make_unique<ActualWrapperChild<Core_> >( *my_core_parent)]: the
    argument has type [BaseCoreParent], the constructor wants [const Core_&]. *)
Definition initialize {Core_ : Type} `{Core Core_} (this : t Core_)
  : result (ActualWrapperChild.t Core_) :=
  as_core <- from_base ;;
  core_parent <- deref (my_core_parent this) ;;
  Ok (ActualWrapperChild.new (as_core core_parent)).
End ActualWrapperParent.

Module BaseWrapperParent.
Inductive t : Type :=
| of_Base (parent : ActualWrapperParent.t BaseCoreParent.t)
| of_A (parent : ActualWrapperParent.t ACoreParent.t)
| of_B (parent : ActualWrapperParent.t BCoreParent.t).

Definition initialize (this : t) : result BaseWrapperChild.t :=
  match this with
  | of_Base parent =>
      child <- ActualWrapperParent.initialize parent ;; Ok (BaseWrapperChild.of_Base child)
  | of_A parent =>
      child <- ActualWrapperParent.initialize parent ;; Ok (BaseWrapperChild.of_A child)
  | of_B parent =>
      child <- ActualWrapperParent.initialize parent ;; Ok (BaseWrapperChild.of_B child)
  end.
End BaseWrapperParent.

(** [int foo(const BaseWrapperParent& wparent)]. *)
Definition foo (wparent : BaseWrapperParent.t) : result Z :=
  wchild <- BaseWrapperParent.initialize wparent ;;
  fst (BaseWrapperChild.wrapped_get wchild).

(** [int bar(std::shared_ptr<BaseCoreParent> base,
             std::shared_ptr<ACoreParent> abase,
             std::shared_ptr<BCoreParent> bbase)]. *)
Definition bar (base : option BaseCoreParent.t) (abase : option ACoreParent.t)
  (bbase : option BCoreParent.t) : result Z :=
  let parent := ActualWrapperParent.new (Core_ := BaseCoreParent.t) base in
  let aparent := ActualWrapperParent.new (Core_ := ACoreParent.t) abase in
  let bparent := ActualWrapperParent.new (Core_ := BCoreParent.t) bbase in
  x <- foo (BaseWrapperParent.of_Base parent) ;;
  y <- foo (BaseWrapperParent.of_A aparent) ;;
  xy <- int_add x y ;;
  z <- foo (BaseWrapperParent.of_B bparent) ;;
  int_add xy z.

End DevirtualizeClassExact.

(** ** The specification's formulas for the array-offset experiment *)

Module OffsetSpec.

(** The arguments of [nd_offset] after [x1], paired as the specification
    writes them: [(extent1, x2); (extent2, x3); ...]. *)
Definition pack (dims : list (Z * Z)) : list Z :=
  flat_map (fun d => [fst d; snd d]) dims.

(** The Horner-scheme fold of the specification over the integers:
    [x1 + extent1 * (x2 + extent2 * (... + extent_(n-1) * xn))]. *)
Fixpoint horner (x : Z) (dims : list (Z * Z)) : Z :=
  match dims with
  | [] => x
  | (extent, x') :: dims' => x + extent * horner x' dims'
  end.

(** The same index written as a sum in which every coordinate is weighted by
    the product of the extents before it: [stride * x1 + (stride * extent1) *
    x2 + ...]. *)
Fixpoint strided (stride x : Z) (dims : list (Z * Z)) : Z :=
  match dims with
  | [] => stride * x
  | (extent, x') :: dims' => stride * x + strided (stride * extent) x' dims'
  end.

(** The rows [r0, r0 + 1, ..., NR - 1] that the loop of [sum] visits, in
    order; empty when [NR <= r0]. *)
Definition rows (r0 NR : Z) : list Z :=
  map (fun k => r0 + Z.of_nat k) (seq 0 (Z.to_nat (NR - r0))).

(** [elts] are the matrix elements [mat[c + r * NC]] for the rows [rs], in
    the same order. *)
Definition column_of {double : Type} (mat : list double) (NC c : Z)
  (rs : list Z) (elts : list double) : Prop :=
  Forall2 (fun r elmt => nth_error mat (Z.to_nat (c + r * NC)) = Some elmt) rs elts.

End OffsetSpec.

(** ** The index space addressed by [nd_offset] *)

Module IndexSpace.

(** The coordinates [x1, x2, ..., xn] of an argument list
    [x1, extent1, x2, ..., extent_(n-1), xn] lie inside the array:
    [0 <= x_k < extent_k], where the extent of the last dimension, which
    [nd_offset] is not given, is [last_extent]. *)
Fixpoint in_extents (x : Z) (dims : list (Z * Z)) (last_extent : Z) : Prop :=
  match dims with
  | [] => 0 <= x < last_extent
  | (extent, x') :: dims' => 0 <= x < extent /\ in_extents x' dims' last_extent
  end.

(** Number of elements of the array: the product of all the extents. *)
Fixpoint volume (dims : list (Z * Z)) (last_extent : Z) : Z :=
  match dims with
  | [] => last_extent
  | (extent, _) :: dims' => extent * volume dims' last_extent
  end.

End IndexSpace.

Import NdOffset OffsetSpec IndexSpace.

(** * Properties of [nd_offset] *)

Section NdOffsetFacts.

Variable w : Z.

Lemma to_Size_idem v : to_Size w (to_Size w v) = to_Size w v.
Proof. unfold to_Size. apply Zmod_mod. Qed.

Lemma Size_add_to_Size a b :
  Size_add w (to_Size w a) (to_Size w b) = to_Size w (a + b).
Proof. unfold Size_add, to_Size. symmetry. apply Zplus_mod. Qed.

Lemma Size_mul_to_Size a b :
  Size_mul w (to_Size w a) (to_Size w b) = to_Size w (a * b).
Proof. unfold Size_mul, to_Size. symmetry. apply Zmult_mod. Qed.

(** The inner recursion multiplies the Horner fold of its coordinates by the
    leading extent, in the arithmetic of [Size_]. *)
Lemma nd_offset_internal_horner dims : forall extent pos,
  nd_offset_internal w extent pos (pack dims)
  = Ok (to_Size w (extent * horner pos dims)).
Proof.
  induction dims as [| [extent' pos'] dims IH]; intros extent pos.
  - cbn. rewrite Size_mul_to_Size. reflexivity.
  - change (pack ((extent', pos') :: dims)) with (extent' :: pos' :: pack dims).
    cbn [nd_offset_internal]. rewrite IH. cbn [bind horner].
    rewrite Size_add_to_Size, Size_mul_to_Size.
    f_equal. f_equal. ring.
Qed.

Lemma nd_offset_pack x1 extent1 x2 dims :
  nd_offset w x1 extent1 x2 (pack dims)
  = Ok (to_Size w (horner x1 ((extent1, x2) :: dims))).
Proof.
  unfold nd_offset. rewrite nd_offset_internal_horner. cbn [bind horner].
  rewrite Size_add_to_Size. reflexivity.
Qed.

Lemma horner_strided dims : forall stride x,
  stride * horner x dims = strided stride x dims.
Proof.
  induction dims as [| [extent x'] dims IH]; intros stride x; cbn.
  - reflexivity.
  - rewrite <- IH. ring.
Qed.

(** A pack of odd length is rejected: the recursion ends in a call with one
    argument. *)
Lemma nd_offset_internal_odd dims last : forall extent pos,
  nd_offset_internal w extent pos (pack dims ++ [last]) = IllFormed.
Proof.
  induction dims as [| [extent' pos'] dims IH]; intros extent pos.
  - reflexivity.
  - change (pack ((extent', pos') :: dims) ++ [last])
      with (extent' :: pos' :: (pack dims ++ [last])).
    cbn [nd_offset_internal]. rewrite IH. reflexivity.
Qed.

End NdOffsetFacts.

(** C3.  [nd_offset] is the Horner fold of its arguments, computed in the
    arithmetic of [Size_]: with three arguments it is [x1 + x2 * extent1]
    (and [nd_offset(2, 5, 3)] is 17), and with any longer argument list
    [x1, extent1, x2, extent2, ..., xn] it is
    [x1 + extent1 * (x2 + extent2 * (... + extent_(n-1) * xn))], reduced
    modulo [2 ^ w]; the reduction disappears whenever the fold itself is a
    value of [Size_].  The fold is the sum of the coordinates weighted by the
    products of the preceding extents. *)
Theorem nd_offset_is_horner_fold (w : Z) :
  (forall x1 extent1 x2,
      nd_offset w x1 extent1 x2 [] = Ok ((x1 + x2 * extent1) mod 2 ^ w)) /\
  (forall x1 extent1 x2,
      0 <= x1 + x2 * extent1 < 2 ^ w ->
      nd_offset w x1 extent1 x2 [] = Ok (x1 + x2 * extent1)) /\
  nd_offset size_t_bits 2 5 3 [] = Ok 17 /\
  (forall x1 extent1 x2 dims,
      nd_offset w x1 extent1 x2 (pack dims)
      = Ok (horner x1 ((extent1, x2) :: dims) mod 2 ^ w)) /\
  (forall x1 extent1 x2 dims,
      0 <= horner x1 ((extent1, x2) :: dims) < 2 ^ w ->
      nd_offset w x1 extent1 x2 (pack dims)
      = Ok (horner x1 ((extent1, x2) :: dims))) /\
  (forall x1 dims, horner x1 dims = strided 1 x1 dims).
Proof.
  assert (H2 : forall x1 extent1 x2,
             nd_offset w x1 extent1 x2 [] = Ok ((x1 + x2 * extent1) mod 2 ^ w)).
  { intros. change (@nil Z) with (pack []). rewrite nd_offset_pack. cbn [horner].
    unfold to_Size. do 2 f_equal. ring. }
  split; [exact H2 |]. split; [| split; [| split; [| split]]].
  - intros x1 extent1 x2 Hfit. rewrite H2, Z.mod_small by exact Hfit. reflexivity.
  - reflexivity.
  - intros. apply nd_offset_pack.
  - intros x1 extent1 x2 dims Hfit. rewrite nd_offset_pack.
    unfold to_Size. rewrite Z.mod_small by exact Hfit. reflexivity.
  - intros. rewrite <- horner_strided. ring.
Qed.

Lemma nd_offset_is_horner_fold_witness :
  0 <= horner 1 [(4, 2); (3, 1)] < 2 ^ 64 /\
  nd_offset 64 1 4 2 [3; 1] = Ok (1 + 4 * (2 + 3 * 1)).
Proof.
  split.
  - vm_compute. split; [discriminate | reflexivity].
  - apply (proj1 (proj2 (proj2 (proj2 (proj2 (nd_offset_is_horner_fold 64)))))
             1 4 2 [(3, 1)]).
    vm_compute. split; [discriminate | reflexivity].
Defined.

(** * Properties of [sum] *)

Lemma rows_empty r0 NR : NR <= r0 -> rows r0 NR = [].
Proof.
  intros Hle. unfold rows.
  replace (Z.to_nat (NR - r0)) with 0%nat by lia. reflexivity.
Qed.

Lemma rows_cons r0 NR : r0 < NR -> rows r0 NR = r0 :: rows (r0 + 1) NR.
Proof.
  intros Hlt. unfold rows.
  replace (Z.to_nat (NR - r0)) with (S (Z.to_nat (NR - (r0 + 1)))) by lia.
  cbn [seq map]. f_equal; [lia |].
  rewrite <- seq_shift, map_map.
  apply map_ext. intros k. lia.
Qed.

Lemma in_rows r r0 NR : In r (rows r0 NR) <-> r0 <= r < NR.
Proof.
  unfold rows. rewrite in_map_iff. split.
  - intros [k [<- Hk]]. apply in_seq in Hk. lia.
  - intros Hr. exists (Z.to_nat (r - r0)). split; [lia |].
    apply in_seq. lia.
Qed.

Section SumFacts.

Variable double : Type.
Variable dzero : double.
Variable dadd : double -> double -> double.

Lemma sum_loop_unfold mat NR NC c r val :
  sum_loop double dadd mat NR NC c r val =
  if r <? NR then
    match sum_body double dadd mat NC c r val with
    | Ok (r', val') => sum_loop double dadd mat NR NC c r' val'
    | Undefined => Undefined
    | IllFormed => IllFormed
    end
  else Ok val.
Proof.
  funelim (sum_loop double dadd mat NR NC c r val).
  - destruct (Z.ltb_spec r NR); [lia | reflexivity].
  - rewrite Hbody. destruct (Z.ltb_spec r NR); [reflexivity | lia].
  - rewrite e. destruct (Z.ltb_spec r NR); [reflexivity | lia].
  - rewrite e. destruct (Z.ltb_spec r NR); [reflexivity | lia].
Qed.

(** The preconditions under which [sum] is called: [NR] and [NC] are
    [int]s, the column is one of the matrix and the matrix has all its
    [NR * NC] elements. *)
Variable mat : list double.
Variables NR NC c : Z.
Hypothesis NR_int : in_int NR.
Hypothesis NC_int : in_int NC.
Hypothesis c_range : 0 <= c < NC.
Hypothesis mat_size : NR * NC <= Z.of_nat (length mat).

Lemma offset_exact r :
  0 <= r < NR -> nd_offset size_t_bits c NC r [] = Ok (c + r * NC).
Proof.
  intros Hr. change (@nil Z) with (pack []). rewrite nd_offset_pack.
  cbn [horner]. unfold to_Size, size_t_bits.
  unfold in_int, INT_MIN, INT_MAX in *.
  assert (Hprod : NC * r <= 2147483647 * 2147483647)
    by (apply Z.mul_le_mono_nonneg; lia).
  rewrite Z.mod_small by nia. f_equal. ring.
Qed.

Lemma offset_in_bounds r :
  0 <= r < NR -> (Z.to_nat (c + r * NC) < length mat)%nat.
Proof.
  intros Hr.
  assert (c + r * NC < NR * NC) by nia.
  assert (0 <= c + r * NC) by nia.
  lia.
Qed.

Lemma sum_body_in_bounds r val :
  0 <= r < NR ->
  exists elmt,
    nth_error mat (Z.to_nat (c + r * NC)) = Some elmt /\
    sum_body double dadd mat NC c r val = Ok (r + 1, dadd val elmt).
Proof.
  intros Hr.
  destruct (nth_error mat (Z.to_nat (c + r * NC))) as [elmt |] eqn:Hnth.
  - exists elmt. split; [reflexivity |].
    unfold sum_body. rewrite (offset_exact r Hr). cbn [bind].
    unfold index. rewrite Hnth. cbn [bind].
    unfold int_add, in_intb.
    unfold in_int, INT_MIN, INT_MAX in *.
    destruct (Z.leb_spec (-2147483648) (r + 1)); [| lia].
    destruct (Z.leb_spec (r + 1) 2147483647); [| lia].
    reflexivity.
  - apply nth_error_None in Hnth. pose proof (offset_in_bounds r Hr). lia.
Qed.

Lemma sum_loop_column n : forall r val,
  Z.to_nat (NR - r) = n -> 0 <= r ->
  exists elts,
    column_of mat NC c (rows r NR) elts /\
    sum_loop double dadd mat NR NC c r val = Ok (fold_left dadd elts val).
Proof.
  induction n as [| n IH]; intros r val Hn Hr.
  - exists []. rewrite rows_empty by lia. split; [constructor |].
    rewrite sum_loop_unfold.
    destruct (Z.ltb_spec r NR); [lia | reflexivity].
  - assert (Hlt : r < NR) by lia.
    destruct (sum_body_in_bounds r val (conj Hr Hlt)) as [elmt [Hnth Hbody]].
    destruct (IH (r + 1) (dadd val elmt)) as [elts [Hcol Hloop]]; [lia | lia |].
    exists (elmt :: elts). rewrite rows_cons by exact Hlt. split.
    + constructor; assumption.
    + rewrite sum_loop_unfold, Hbody, Hloop.
      destruct (Z.ltb_spec r NR); [reflexivity | lia].
Qed.

(** C4.  For a matrix of at least [NR * NC] elements, a column
    [0 <= c < NC] and a first row [0 <= r0], [sum(mat, NR, NC, r0, c)] is the
    result of adding, from 0 on and from left to right, the elements
    [mat[c + r * NC]] for [r = r0, ..., NR - 1]; it is 0 when [NR <= r0]. *)
Theorem sum_is_column_sum (r0 : Z) :
  0 <= r0 ->
  (exists elts,
      column_of mat NC c (rows r0 NR) elts /\
      sum double dzero dadd mat NR NC r0 c = Ok (fold_left dadd elts dzero)) /\
  (NR <= r0 -> sum double dzero dadd mat NR NC r0 c = Ok dzero).
Proof.
  intros Hr0. split.
  - unfold sum. apply (sum_loop_column (Z.to_nat (NR - r0))); [reflexivity | exact Hr0].
  - intros Hempty. unfold sum. rewrite sum_loop_unfold.
    destruct (Z.ltb_spec r0 NR); [lia | reflexivity].
Qed.

(** C9.  Under the same preconditions every index that [sum] computes, for
    the rows [r0 <= r < NR] that its loop visits, is [c + r * NC] and lies
    inside the matrix, so the read [mat[...]] has a value and [sum] returns
    one: the out-of-bounds outcome is never reached. *)
Theorem sum_reads_in_bounds (r0 : Z) :
  0 <= r0 ->
  (forall r, In r (rows r0 NR) ->
     exists i,
       nd_offset size_t_bits c NC r [] = Ok i /\
       0 <= i < Z.of_nat (length mat) /\
       is_ok (index double mat i) = true) /\
  is_ok (sum double dzero dadd mat NR NC r0 c) = true.
Proof.
  intros Hr0. split.
  - intros r Hin. apply in_rows in Hin.
    assert (Hr : 0 <= r < NR) by lia.
    exists (c + r * NC). split; [apply offset_exact; exact Hr |].
    pose proof (offset_in_bounds r Hr) as Hb.
    split; [nia |].
    unfold index.
    destruct (nth_error mat (Z.to_nat (c + r * NC))) eqn:Hnth; [reflexivity |].
    apply nth_error_None in Hnth. lia.
  - destruct (sum_loop_column (Z.to_nat (NR - r0)) r0 dzero eq_refl Hr0)
      as [elts [_ Hsum]].
    unfold sum. rewrite Hsum. reflexivity.
Qed.

End SumFacts.

Lemma sum_is_column_sum_witness :
  (exists elts,
      column_of [1; 2; 3; 4; 5; 6]%float 2 1 (rows 0 3) elts /\
      sum float 0%float PrimFloat.add [1; 2; 3; 4; 5; 6]%float 3 2 0 1
      = Ok (fold_left PrimFloat.add elts 0%float)) /\
  (3 <= 0 ->
   sum float 0%float PrimFloat.add [1; 2; 3; 4; 5; 6]%float 3 2 0 1 = Ok 0%float).
Proof.
  apply (sum_is_column_sum float 0%float PrimFloat.add
           [1; 2; 3; 4; 5; 6]%float 3 2 1).
  - unfold in_int, INT_MIN, INT_MAX. lia.
  - unfold in_int, INT_MIN, INT_MAX. lia.
  - lia.
  - simpl. lia.
  - lia.
Defined.

Lemma sum_reads_in_bounds_witness :
  is_ok (sum float 0%float PrimFloat.add [1; 2; 3; 4; 5; 6]%float 3 2 1 0) = true.
Proof.
  apply (sum_reads_in_bounds float 0%float PrimFloat.add
           [1; 2; 3; 4; 5; 6]%float 3 2 0).
  - unfold in_int, INT_MIN, INT_MAX. lia.
  - unfold in_int, INT_MIN, INT_MAX. lia.
  - lia.
  - simpl. lia.
  - lia.
Defined.

(** * Conversions and wrap-around in [nd_offset] *)

Lemma pair_list_ind (P : list Z -> Prop) :
  P [] ->
  (forall a, P [a]) ->
  (forall a b l, P l -> P (a :: b :: l)) ->
  forall l, P l.
Proof.
  intros Hnil Hone Hstep.
  fix IH 1.
  intros [| a [| b l]].
  - exact Hnil.
  - apply Hone.
  - apply Hstep, IH.
Qed.

Lemma nd_offset_internal_converts w more_args : forall extent pos,
  nd_offset_internal w extent pos more_args
  = nd_offset_internal w (to_Size w extent) (to_Size w pos)
      (map (to_Size w) more_args).
Proof.
  induction more_args as [| a | a b l IH] using pair_list_ind; intros extent pos.
  - cbn. rewrite !to_Size_idem. reflexivity.
  - reflexivity.
  - cbn [map nd_offset_internal]. rewrite <- IH, !to_Size_idem. reflexivity.
Qed.

Lemma to_Size_range w v : 0 <= w -> 0 <= to_Size w v < 2 ^ w.
Proof.
  intros Hw. unfold to_Size. apply Z.mod_pos_bound.
  apply Z.pow_pos_nonneg; lia.
Qed.

(** C10.  [nd_offset<Size_>] brings every argument to the unsigned type
    [Size_] first and then adds and multiplies modulo [2 ^ w]: a conversion
    yields the value in [0, 2 ^ w) congruent to its operand, so a negative
    operand becomes the large value [v + 2 ^ w]; the result of [nd_offset]
    is the same as on the converted arguments, lies in [0, 2 ^ w) and is
    congruent to the Horner fold over the integers.  In [sum], where
    [Size_] is the 64-bit [std::size_t], a negative column or extent is no
    error: the index is computed from the wrapped value, and e.g.
    [sum(mat, 2, 2, 1, -1)] on four elements reads [mat[1]]. *)
Theorem nd_offset_wraps_modulo (w : Z) :
  0 <= w ->
  (forall v, 0 <= to_Size w v < 2 ^ w /\ (to_Size w v - v) mod 2 ^ w = 0) /\
  (forall v, - 2 ^ w <= v < 0 -> to_Size w v = v + 2 ^ w) /\
  (forall x1 extent1 x2 remaining,
      nd_offset w x1 extent1 x2 remaining
      = nd_offset w (to_Size w x1) (to_Size w extent1) (to_Size w x2)
          (map (to_Size w) remaining)) /\
  (forall x1 extent1 x2 dims,
      exists i,
        nd_offset w x1 extent1 x2 (pack dims) = Ok i /\
        0 <= i < 2 ^ w /\
        i = horner x1 ((extent1, x2) :: dims) mod 2 ^ w) /\
  (forall c NC,
      in_int c -> c < 0 ->
      nd_offset size_t_bits c NC 0 [] = Ok (c + 2 ^ 64) /\
      2 ^ 63 <= c + 2 ^ 64) /\
  (forall NC,
      in_int NC -> NC < 0 ->
      nd_offset size_t_bits 0 NC 1 [] = Ok (NC + 2 ^ 64)) /\
  sum float 0%float PrimFloat.add [1; 2; 3; 4]%float 2 2 1 (-1) = Ok 2%float.
Proof.
  intros Hw.
  assert (Hpos : 0 < 2 ^ w) by (apply Z.pow_pos_nonneg; lia).
  assert (Hneg : forall v, - 2 ^ w <= v < 0 -> to_Size w v = v + 2 ^ w).
  { intros v Hv. unfold to_Size.
    rewrite <- (Z.mod_small (v + 2 ^ w) (2 ^ w)) by lia.
    rewrite <- (Z_mod_plus_full v 1 (2 ^ w)). f_equal. ring. }
  split; [| split; [| split; [| split; [| split; [| split]]]]].
  - intros v. split; [apply to_Size_range; exact Hw |].
    unfold to_Size. rewrite Zminus_mod, Zmod_mod, Z.sub_diag. apply Zmod_0_l.
  - exact Hneg.
  - intros. unfold nd_offset.
    rewrite (nd_offset_internal_converts w remaining extent1 x2), to_Size_idem.
    reflexivity.
  - intros. exists (to_Size w (horner x1 ((extent1, x2) :: dims))).
    split; [apply nd_offset_pack |].
    split; [apply to_Size_range; exact Hw | reflexivity].
  - intros c NC Hc Hlt. unfold in_int, INT_MIN, INT_MAX in Hc. split; [| lia].
    change (@nil Z) with (pack []). rewrite nd_offset_pack. cbn [horner].
    unfold to_Size, size_t_bits. f_equal.
    replace (c + NC * 0) with (c + 1 * 2 ^ 64 - 1 * 2 ^ 64) by ring.
    rewrite Zminus_mod, Z_mod_mult, Z.sub_0_r, Zmod_mod.
    apply Z.mod_small. lia.
  - intros NC HNC Hlt. unfold in_int, INT_MIN, INT_MAX in HNC.
    change (@nil Z) with (pack []). rewrite nd_offset_pack. cbn [horner].
    unfold to_Size, size_t_bits. f_equal.
    replace (0 + NC * 1) with (NC + 1 * 2 ^ 64 - 1 * 2 ^ 64) by ring.
    rewrite Zminus_mod, Z_mod_mult, Z.sub_0_r, Zmod_mod.
    apply Z.mod_small. lia.
  - vm_compute. reflexivity.
Qed.

Lemma nd_offset_wraps_modulo_witness :
  to_Size 64 (-1) = 18446744073709551615 /\
  nd_offset size_t_bits (-1) 2 0 [] = Ok 18446744073709551615.
Proof.
  assert (H64 : 0 <= 64) by lia.
  split.
  - apply (proj1 (proj2 (nd_offset_wraps_modulo 64 H64)) (-1)). lia.
  - apply (proj1 (proj2 (proj2 (proj2 (proj2 (nd_offset_wraps_modulo 64 H64)))))
             (-1) 2).
    + unfold in_int, INT_MIN, INT_MAX. lia.
    + lia.
Defined.

(** * Properties of the Parent/Child hierarchies *)

Lemma int_add_in_range a b :
  in_int (a + b) -> int_add a b = Ok (a + b).
Proof.
  unfold int_add, in_intb, in_int. intros [Hlo Hhi].
  destruct (Z.leb_spec INT_MIN (a + b)); [| lia].
  destruct (Z.leb_spec (a + b) INT_MAX); [| lia].
  reflexivity.
Qed.

Lemma int_add_overflow a b :
  INT_MAX < a + b -> int_add a b = Undefined.
Proof.
  unfold int_add, in_intb. intros Hhi.
  destruct (Z.leb_spec (a + b) INT_MAX); [lia |].
  rewrite andb_false_r. reflexivity.
Qed.

(** What [create()] followed by [get()] gives on the parents that construct
    the child of their own variant. *)
Lemma AParent_create_get p :
  fst (Devirtualize.BaseChild.get
         (Devirtualize.AParent.create (Devirtualize.AParent.new p))) = Ok p.
Proof. reflexivity. Qed.

Lemma ACoreParent_create_get p :
  fst (DevirtualizeClass.BaseCoreChild.get
         (DevirtualizeClass.ACoreParent.create
            (DevirtualizeClass.ACoreParent.new p))) = Ok p /\
  fst (DevirtualizeClassExact.BaseCoreChild.get
         (DevirtualizeClassExact.ACoreParent.create
            (DevirtualizeClassExact.ACoreParent.new p))) = Ok p /\
  fst (DevirtualizeClassExact.ACoreChild.get
         (DevirtualizeClassExact.ACoreParent.create_exact
            (DevirtualizeClassExact.ACoreParent.new p))) = Ok p.
Proof. repeat split. Qed.

Lemma BCoreParent_create_get p :
  in_int p -> p + 20 <= INT_MAX ->
  fst (DevirtualizeClass.BaseCoreChild.get
         (DevirtualizeClass.BCoreParent.create
            (DevirtualizeClass.BCoreParent.new p))) = Ok (p + 20) /\
  fst (DevirtualizeClassExact.BaseCoreChild.get
         (DevirtualizeClassExact.BCoreParent.create
            (DevirtualizeClassExact.BCoreParent.new p))) = Ok (p + 20) /\
  fst (DevirtualizeClassExact.BCoreChild.get
         (DevirtualizeClassExact.BCoreParent.create_exact
            (DevirtualizeClassExact.BCoreParent.new p))) = Ok (p + 20).
Proof.
  intros Hp Hfit.
  assert (Hadd : int_add p 20 = Ok (p + 20))
    by (apply int_add_in_range; unfold in_int in *; unfold INT_MIN in *; lia).
  repeat split; cbn; exact Hadd.
Qed.

(** C1.  The claim holds for [AParent] and for the Core parents of both
    snippets (lemmas above), but not for [BParent] of devirtualize.cpp: its
    [create()] constructs an [AChild], so the child's [get()] returns the
    payload [p] itself and not [p + 20]; with payload 5 it returns 5. *)
Theorem BParent_create_constructs_AChild (p : Z) :
  Devirtualize.BParent.create (Devirtualize.BParent.new p)
  = Devirtualize.BaseChild.of_AChild (Devirtualize.AChild.new p) /\
  fst (Devirtualize.BaseChild.get
         (Devirtualize.BParent.create (Devirtualize.BParent.new p))) = Ok p /\
  fst (Devirtualize.BaseChild.get
         (Devirtualize.BaseParent.create
            (Devirtualize.BaseParent.of_BParent (Devirtualize.BParent.new p))))
  <> Ok (p + 20) /\
  fst (Devirtualize.BaseChild.get
         (Devirtualize.BParent.create (Devirtualize.BParent.new 5))) = Ok 5.
Proof.
  repeat split. cbn. intros H. injection H. lia.
Qed.

(** C2, as amended.  On every [int] payload [p] the variant-A children
    return exactly [p] from [get()].  The variant-B children return exactly
    [p + 20] when [p + 20 <= INT_MAX]; for a larger [p] the [int] addition
    [payload + 20] overflows and [get()] has no defined value, on each of
    the three B classes.  Payload 5 gives 5 on variant A and 25 on variant
    B. *)
Theorem child_get_offsets (p : Z) :
  in_int p ->
  (fst (Devirtualize.BaseChild.get
          (Devirtualize.BaseChild.of_AChild (Devirtualize.AChild.new p))) = Ok p /\
   fst (DevirtualizeClass.BaseCoreChild.get
          (DevirtualizeClass.BaseCoreChild.of_ACoreChild
             (DevirtualizeClass.ACoreChild.new p))) = Ok p /\
   fst (DevirtualizeClassExact.BaseCoreChild.get
          (DevirtualizeClassExact.BaseCoreChild.of_ACoreChild
             (DevirtualizeClassExact.ACoreChild.new p))) = Ok p) /\
  (p + 20 <= INT_MAX ->
   fst (Devirtualize.BaseChild.get
          (Devirtualize.BaseChild.of_BChild (Devirtualize.BChild.new p)))
   = Ok (p + 20) /\
   fst (DevirtualizeClass.BaseCoreChild.get
          (DevirtualizeClass.BaseCoreChild.of_BCoreChild
             (DevirtualizeClass.BCoreChild.new p))) = Ok (p + 20) /\
   fst (DevirtualizeClassExact.BaseCoreChild.get
          (DevirtualizeClassExact.BaseCoreChild.of_BCoreChild
             (DevirtualizeClassExact.BCoreChild.new p))) = Ok (p + 20)) /\
  (INT_MAX < p + 20 ->
   fst (Devirtualize.BaseChild.get
          (Devirtualize.BaseChild.of_BChild (Devirtualize.BChild.new p)))
   = Undefined /\
   fst (DevirtualizeClass.BaseCoreChild.get
          (DevirtualizeClass.BaseCoreChild.of_BCoreChild
             (DevirtualizeClass.BCoreChild.new p))) = Undefined /\
   fst (DevirtualizeClassExact.BaseCoreChild.get
          (DevirtualizeClassExact.BaseCoreChild.of_BCoreChild
             (DevirtualizeClassExact.BCoreChild.new p))) = Undefined) /\
  (fst (Devirtualize.AChild.get (Devirtualize.AChild.new 5)) = Ok 5 /\
   fst (Devirtualize.BChild.get (Devirtualize.BChild.new 5)) = Ok 25).
Proof.
  intros Hp. split; [repeat split |]. split; [| split; [| split; reflexivity]].
  - intros Hfit.
    assert (Hadd : int_add p 20 = Ok (p + 20))
      by (apply int_add_in_range; unfold in_int in *; unfold INT_MIN in *; lia).
    repeat split; cbn; exact Hadd.
  - intros Hover.
    pose proof (int_add_overflow p 20 Hover) as Hadd.
    repeat split; cbn; exact Hadd.
Qed.

Lemma child_get_offsets_witness :
  fst (Devirtualize.BaseChild.get
         (Devirtualize.BaseChild.of_BChild (Devirtualize.BChild.new 5)))
  = Ok (5 + 20).
Proof.
  assert (H5 : in_int 5) by (unfold in_int, INT_MIN, INT_MAX; lia).
  apply (proj1 (proj2 (child_get_offsets 5 H5))).
  unfold INT_MAX. lia.
Defined.

(** C2 as stated fails at the largest [int]: with payload [INT_MAX] every
    variant-B child's [get()] overflows and does not return [p + 20]. *)
Lemma variant_B_get_overflows_at_INT_MAX :
  in_int 2147483647 /\
  fst (Devirtualize.BChild.get (Devirtualize.BChild.new 2147483647))
  <> Ok (2147483647 + 20) /\
  fst (DevirtualizeClass.BCoreChild.get
         (DevirtualizeClass.BCoreChild.new 2147483647))
  <> Ok (2147483647 + 20) /\
  fst (DevirtualizeClassExact.BCoreChild.get
         (DevirtualizeClassExact.BCoreChild.new 2147483647))
  <> Ok (2147483647 + 20) /\
  fst (Devirtualize.BaseChild.get
         (Devirtualize.BaseChild.of_BChild
            (Devirtualize.BChild.new 2147483647))) = Undefined.
Proof.
  split; [unfold in_int, INT_MIN, INT_MAX; lia |].
  repeat split; try (cbn; discriminate).
Qed.

(** C7.  In the second snippet [create()] and [create_exact()] agree on
    every concrete parent: [ACoreParent::create()] returns the [ACoreChild]
    of [create_exact()] behind the base-class pointer, so the two children
    give equal [get()] results, and likewise [BCoreParent] with [BCoreChild];
    through the [BaseCoreParent] interface the non-virtual [create_exact()]
    returns the result of the virtual [create()]. *)
Theorem create_exact_agrees_with_create :
  (forall p,
      let parent := DevirtualizeClassExact.ACoreParent.new p in
      let exact : DevirtualizeClassExact.ACoreChild.t :=
        DevirtualizeClassExact.ACoreParent.create_exact parent in
      DevirtualizeClassExact.ACoreParent.create parent
      = DevirtualizeClassExact.BaseCoreChild.of_ACoreChild exact /\
      fst (DevirtualizeClassExact.BaseCoreChild.get
             (DevirtualizeClassExact.ACoreParent.create parent))
      = fst (DevirtualizeClassExact.ACoreChild.get exact)) /\
  (forall p,
      let parent := DevirtualizeClassExact.BCoreParent.new p in
      let exact : DevirtualizeClassExact.BCoreChild.t :=
        DevirtualizeClassExact.BCoreParent.create_exact parent in
      DevirtualizeClassExact.BCoreParent.create parent
      = DevirtualizeClassExact.BaseCoreChild.of_BCoreChild exact /\
      fst (DevirtualizeClassExact.BaseCoreChild.get
             (DevirtualizeClassExact.BCoreParent.create parent))
      = fst (DevirtualizeClassExact.BCoreChild.get exact)) /\
  (forall parent : DevirtualizeClassExact.BaseCoreParent.t,
      DevirtualizeClassExact.BaseCoreParent.create_exact parent
      = DevirtualizeClassExact.BaseCoreParent.create parent /\
      DevirtualizeClassExact.BaseCoreParent.create_exact parent
      = match parent with
        | DevirtualizeClassExact.BaseCoreParent.of_ACoreParent a =>
            DevirtualizeClassExact.BaseCoreChild.of_ACoreChild
              (DevirtualizeClassExact.ACoreParent.create_exact a)
        | DevirtualizeClassExact.BaseCoreParent.of_BCoreParent b =>
            DevirtualizeClassExact.BaseCoreChild.of_BCoreChild
              (DevirtualizeClassExact.BCoreParent.create_exact b)
        end).
Proof.
  split; [| split].
  - intros p parent exact. split; reflexivity.
  - intros p parent exact. split; reflexivity.
  - intros [a | b]; split; reflexivity.
Qed.

(** C8.  [get()] is pure on every child: the receiver after the call is the
    receiver before it, for each concrete class and through the virtual call
    on the base class, and a second call returns what the first returned. *)
Theorem get_is_pure :
  (forall child : Devirtualize.BaseChild.t,
      snd (Devirtualize.BaseChild.get child) = child /\
      fst (Devirtualize.BaseChild.get (snd (Devirtualize.BaseChild.get child)))
      = fst (Devirtualize.BaseChild.get child)) /\
  (forall child : DevirtualizeClass.BaseCoreChild.t,
      snd (DevirtualizeClass.BaseCoreChild.get child) = child /\
      fst (DevirtualizeClass.BaseCoreChild.get
             (snd (DevirtualizeClass.BaseCoreChild.get child)))
      = fst (DevirtualizeClass.BaseCoreChild.get child)) /\
  (forall child : DevirtualizeClassExact.BaseCoreChild.t,
      snd (DevirtualizeClassExact.BaseCoreChild.get child) = child /\
      fst (DevirtualizeClassExact.BaseCoreChild.get
             (snd (DevirtualizeClassExact.BaseCoreChild.get child)))
      = fst (DevirtualizeClassExact.BaseCoreChild.get child)) /\
  (forall p,
      snd (Devirtualize.AChild.get (Devirtualize.AChild.new p))
      = Devirtualize.AChild.new p /\
      snd (Devirtualize.BChild.get (Devirtualize.BChild.new p))
      = Devirtualize.BChild.new p /\
      snd (DevirtualizeClass.ACoreChild.get (DevirtualizeClass.ACoreChild.new p))
      = DevirtualizeClass.ACoreChild.new p /\
      snd (DevirtualizeClass.BCoreChild.get (DevirtualizeClass.BCoreChild.new p))
      = DevirtualizeClass.BCoreChild.new p /\
      snd (DevirtualizeClassExact.ACoreChild.get
             (DevirtualizeClassExact.ACoreChild.new p))
      = DevirtualizeClassExact.ACoreChild.new p /\
      snd (DevirtualizeClassExact.BCoreChild.get
             (DevirtualizeClassExact.BCoreChild.new p))
      = DevirtualizeClassExact.BCoreChild.new p).
Proof.
  split; [| split; [| split]].
  - intros [child | child]; split; reflexivity.
  - intros [child | child]; split; reflexivity.
  - intros [child | child]; split; reflexivity.
  - intros p. repeat split.
Qed.

(** * The wrapper layer, first snippet *)

Section WrapperFirst.

Import DevirtualizeClass.

Lemma wrapper_initialize {Core_ : Type} {HCore : Core Core_} (core_parent : Core_) :
  ActualWrapperParent.initialize (ActualWrapperParent.new (Some core_parent))
  = Ok (ActualWrapperChild.new core_parent) /\
  ActualWrapperChild.my_core_child (ActualWrapperChild.new core_parent)
  = create core_parent.
Proof. split; reflexivity. Qed.

Lemma wrapper_wrapped_get {Core_ : Type} (wchild : ActualWrapperChild.t Core_) :
  fst (ActualWrapperChild.wrapped_get wchild)
  = fst (BaseCoreChild.get (ActualWrapperChild.my_core_child wchild)).
Proof.
  unfold ActualWrapperChild.wrapped_get.
  destruct (BaseCoreChild.get (ActualWrapperChild.my_core_child wchild)).
  reflexivity.
Qed.

Lemma foo_ACoreParent p :
  foo (BaseWrapperParent.of_A (ActualWrapperParent.new (Some (ACoreParent.new p))))
  = Ok p.
Proof. reflexivity. Qed.

Lemma foo_BCoreParent q :
  foo (BaseWrapperParent.of_B (ActualWrapperParent.new (Some (BCoreParent.new q))))
  = int_add q 20.
Proof. reflexivity. Qed.

Lemma foo_BaseCoreParent base :
  foo (BaseWrapperParent.of_Base (ActualWrapperParent.new (Some base)))
  = fst (BaseCoreChild.get (BaseCoreParent.create base)).
Proof.
  unfold foo. cbn.
  unfold ActualWrapperChild.wrapped_get. cbn.
  destruct (BaseCoreChild.get (BaseCoreParent.create base)). reflexivity.
Qed.

(** [bar] of the first snippet adds the three results of [foo]; the last two
    addends are [p] and [q + 20]. *)
Lemma bar_first_snippet base p q x :
  fst (BaseCoreChild.get (BaseCoreParent.create base)) = Ok x ->
  in_int (q + 20) -> in_int (x + p) -> in_int (x + p + (q + 20)) ->
  bar (Some base) (Some (ACoreParent.new p)) (Some (BCoreParent.new q))
  = Ok (x + p + (q + 20)).
Proof.
  intros Hx Hq Hxp Hsum. unfold bar.
  rewrite foo_BaseCoreParent, Hx, foo_ACoreParent, foo_BCoreParent.
  cbn [bind]. rewrite (int_add_in_range x p Hxp). cbn [bind].
  rewrite (int_add_in_range q 20 Hq). cbn [bind].
  apply int_add_in_range. exact Hsum.
Qed.

End WrapperFirst.

(** * The wrapper layer, second snippet *)

Section WrapperExact.

Import DevirtualizeClassExact.

(** The wrapper child itself does what it is meant to do: its constructor
    stores the result of [create_exact()] under its exact type and
    [wrapped_get()] forwards to it. *)
Lemma exact_wrapper_child {Core_ : Type} {HCore : Core Core_} (core_parent : Core_) :
  ActualWrapperChild.my_core_child (ActualWrapperChild.new core_parent)
  = create_exact core_parent /\
  fst (ActualWrapperChild.wrapped_get (ActualWrapperChild.new core_parent))
  = fst (get (create_exact core_parent)).
Proof.
  split; [reflexivity |].
  unfold ActualWrapperChild.wrapped_get. cbn.
  destruct (get (create_exact core_parent)). reflexivity.
Qed.

Lemma exact_initialize_BaseCoreParent base :
  ActualWrapperParent.initialize
    (ActualWrapperParent.new (Core_ := BaseCoreParent.t) (Some base))
  = Ok (ActualWrapperChild.new base).
Proof. reflexivity. Qed.

Lemma exact_foo_BaseCoreParent base :
  foo (BaseWrapperParent.of_Base (ActualWrapperParent.new (Some base)))
  = fst (BaseCoreChild.get (BaseCoreParent.create base)).
Proof.
  unfold foo. cbn.
  unfold ActualWrapperChild.wrapped_get. cbn.
  unfold BaseCoreParent.create_exact.
  destruct (BaseCoreChild.get (BaseCoreParent.create base)). reflexivity.
Qed.

End WrapperExact.

(** C5.  In the first snippet [initialize()] builds the wrapper child from
    the wrapped parent and [wrapped_get()] returns the parent's result (5
    for an [ACoreParent] holding 5).  In the second snippet the wrapper
    parent keeps its core parent as a [BaseCoreParent] handle, and
    [initialize()] passes that to a constructor that wants [const Core_&]:
    for [Core_ = ACoreParent] and [Core_ = BCoreParent] the call has no
    meaning, whatever the payload, so no wrapper child is constructed and
    [wrapped_get()] returns nothing. *)
Theorem exact_initialize_ill_formed (p : Z) :
  DevirtualizeClassExact.ActualWrapperParent.initialize
    (DevirtualizeClassExact.ActualWrapperParent.new
       (Some (DevirtualizeClassExact.ACoreParent.new p))) = IllFormed /\
  DevirtualizeClassExact.ActualWrapperParent.initialize
    (DevirtualizeClassExact.ActualWrapperParent.new
       (Some (DevirtualizeClassExact.BCoreParent.new p))) = IllFormed /\
  DevirtualizeClass.ActualWrapperParent.initialize
    (DevirtualizeClass.ActualWrapperParent.new
       (Some (DevirtualizeClass.ACoreParent.new p)))
  = Ok (DevirtualizeClass.ActualWrapperChild.new
          (DevirtualizeClass.ACoreParent.new p)) /\
  (wchild <- DevirtualizeClass.ActualWrapperParent.initialize
               (DevirtualizeClass.ActualWrapperParent.new
                  (Some (DevirtualizeClass.ACoreParent.new 5))) ;;
   fst (DevirtualizeClass.ActualWrapperChild.wrapped_get wchild)) = Ok 5 /\
  (wchild <- DevirtualizeClassExact.ActualWrapperParent.initialize
               (DevirtualizeClassExact.ActualWrapperParent.new
                  (Some (DevirtualizeClassExact.ACoreParent.new 5))) ;;
   fst (DevirtualizeClassExact.ActualWrapperChild.wrapped_get wchild))
  = IllFormed.
Proof.
  repeat split.
Qed.

(** C6.  [foo] of devirtualize.cpp returns the payload of its [AParent], and
    [bar] of the first snippet returns 1 + 5 + 25 = 31 on parents holding 1,
    5 and 5.  In the second snippet [foo] on the wrappers of an
    [ACoreParent] and of a [BCoreParent] has no value, for the reason given
    at C5, and so [bar] has none either. *)
Theorem exact_bar_ill_formed (p q : Z) :
  Devirtualize.foo (Devirtualize.AParent.new p) = Ok p /\
  DevirtualizeClass.bar
    (Some (DevirtualizeClass.BaseCoreParent.of_ACoreParent
             (DevirtualizeClass.ACoreParent.new 1)))
    (Some (DevirtualizeClass.ACoreParent.new 5))
    (Some (DevirtualizeClass.BCoreParent.new 5)) = Ok 31 /\
  DevirtualizeClassExact.foo
    (DevirtualizeClassExact.BaseWrapperParent.of_A
       (DevirtualizeClassExact.ActualWrapperParent.new
          (Some (DevirtualizeClassExact.ACoreParent.new p)))) = IllFormed /\
  DevirtualizeClassExact.foo
    (DevirtualizeClassExact.BaseWrapperParent.of_B
       (DevirtualizeClassExact.ActualWrapperParent.new
          (Some (DevirtualizeClassExact.BCoreParent.new q)))) = IllFormed /\
  (forall base,
      is_ok (DevirtualizeClassExact.bar
               (Some base)
               (Some (DevirtualizeClassExact.ACoreParent.new p))
               (Some (DevirtualizeClassExact.BCoreParent.new q))) = false) /\
  DevirtualizeClassExact.bar
    (Some (DevirtualizeClassExact.BaseCoreParent.of_ACoreParent
             (DevirtualizeClassExact.ACoreParent.new 1)))
    (Some (DevirtualizeClassExact.ACoreParent.new 5))
    (Some (DevirtualizeClassExact.BCoreParent.new 5)) = IllFormed.
Proof.
  split; [reflexivity |]. split; [reflexivity |].
  split; [reflexivity |]. split; [reflexivity |].
  split; [| reflexivity].
  intros base. unfold DevirtualizeClassExact.bar.
  rewrite exact_foo_BaseCoreParent.
  destruct (fst (DevirtualizeClassExact.BaseCoreChild.get
                   (DevirtualizeClassExact.BaseCoreParent.create base)));
    reflexivity.
Qed.

(** * Further properties of [nd_offset] *)

Lemma is_ok_bind {A B : Type} (m : result A) (f : A -> B) :
  is_ok (x <- m ;; Ok (f x)) = is_ok m.
Proof. destruct m; reflexivity. Qed.

Lemma nd_offset_internal_arity w more_args : forall extent pos,
  is_ok (nd_offset_internal w extent pos more_args)
  = Nat.even (length more_args).
Proof.
  induction more_args as [| a | a b l IH] using pair_list_ind; intros extent pos.
  - reflexivity.
  - reflexivity.
  - cbn [nd_offset_internal length].
    rewrite (is_ok_bind (nd_offset_internal w a b l)), IH. reflexivity.
Qed.

(** X1.  [nd_offset] called with an even number of arguments is
    ill-formed, whatever the argument values and the result type: after
    [x1, extent1, x2] the remaining arguments are consumed in
    (extent, coordinate) pairs, and with one argument left over, as in a
    call [nd_offset(x1, extent1, x2, extent2)] that also passes the last
    extent, the recursion reaches a call of [nd_offset_internal] with a
    single argument, which no overload accepts. *)
Theorem nd_offset_arity (w x1 extent1 x2 : Z) (remaining : list Z) :
  Nat.even (length remaining) = false ->
  nd_offset w x1 extent1 x2 remaining = IllFormed.
Proof.
  intros Hodd.
  assert (Hok : is_ok (nd_offset w x1 extent1 x2 remaining) = false).
  { unfold nd_offset.
    rewrite (is_ok_bind (nd_offset_internal w extent1 x2 remaining)).
    rewrite nd_offset_internal_arity. exact Hodd. }
  unfold nd_offset in *.
  destruct (nd_offset_internal w extent1 x2 remaining) as [i | |] eqn:Hin.
  - discriminate Hok.
  - (* the inner call never yields undefined behaviour *)
    exfalso. clear Hok. revert extent1 x2 Hin Hodd.
    induction remaining as [| a | a b l IH] using pair_list_ind;
      intros extent1 x2 Hin Hodd.
    + discriminate Hin.
    + discriminate Hin.
    + cbn [nd_offset_internal] in Hin.
      destruct (nd_offset_internal w a b l) eqn:Hl; try discriminate Hin.
      apply (IH a b Hl). exact Hodd.
  - reflexivity.
Qed.

Lemma nd_offset_arity_witness :
  nd_offset 64 2 5 3 [7] = IllFormed.
Proof.
  apply (nd_offset_arity 64 2 5 3 [7]). reflexivity.
Defined.

Lemma horner_shift dims : forall x k, horner (x + k) dims = horner x dims + k.
Proof.
  destruct dims as [| [extent x'] dims]; intros x k; cbn; ring.
Qed.

(** X2.  Moving one step along a dimension moves the offset by that
    dimension's stride, in the arithmetic of [Size_] and for argument lists
    of any length: one step in [x1] adds 1, one step in [x2] adds
    [extent1].  This is what lets the loop of [sum] advance by [NC] per row
    instead of multiplying. *)
Theorem nd_offset_stride (w x1 extent1 x2 : Z) (dims : list (Z * Z)) :
  exists i,
    nd_offset w x1 extent1 x2 (pack dims) = Ok i /\
    nd_offset w (x1 + 1) extent1 x2 (pack dims) = Ok (Size_add w i (to_Size w 1)) /\
    nd_offset w x1 extent1 (x2 + 1) (pack dims)
    = Ok (Size_add w i (to_Size w extent1)).
Proof.
  exists (to_Size w (horner x1 ((extent1, x2) :: dims))).
  rewrite !nd_offset_pack. split; [reflexivity |].
  rewrite !Size_add_to_Size. split.
  - rewrite horner_shift. reflexivity.
  - cbn [horner]. rewrite horner_shift. do 2 f_equal. ring.
Qed.

Lemma horner_bound dims : forall x last_extent,
  in_extents x dims last_extent ->
  0 <= horner x dims < volume dims last_extent.
Proof.
  induction dims as [| [extent x'] dims IH]; intros x last_extent Hin.
  - exact Hin.
  - cbn in Hin |- *. destruct Hin as [Hx Hrest].
    specialize (IH x' last_extent Hrest). nia.
Qed.

Lemma horner_injective dims : forall dims' x y last_extent,
  map fst dims = map fst dims' ->
  in_extents x dims last_extent ->
  in_extents y dims' last_extent ->
  horner x dims = horner y dims' ->
  x = y /\ dims = dims'.
Proof.
  induction dims as [| [extent x'] dims IH];
    intros [| [extent' y'] dims'] x y last_extent Hext Hx Hy Heq;
    try discriminate Hext.
  - split; [exact Heq | reflexivity].
  - cbn in Hext. injection Hext as -> Hext.
    cbn in Hx, Hy, Heq. destruct Hx as [Hx Hx'], Hy as [Hy Hy'].
    assert (Hh : horner x' dims = horner y' dims') by nia.
    assert (Hxy : x = y) by nia.
    destruct (IH dims' x' y' last_extent Hext Hx' Hy' Hh) as [-> ->].
    split; [exact Hxy | reflexivity].
Qed.

Lemma nd_offset_no_wrap (w x1 extent1 x2 last_extent : Z) (dims : list (Z * Z)) :
  in_extents x1 ((extent1, x2) :: dims) last_extent ->
  volume ((extent1, x2) :: dims) last_extent <= 2 ^ w ->
  nd_offset w x1 extent1 x2 (pack dims)
  = Ok (horner x1 ((extent1, x2) :: dims)).
Proof.
  intros Hin Hvol.
  pose proof (horner_bound _ _ _ Hin) as Hb.
  rewrite nd_offset_pack. unfold to_Size.
  rewrite Z.mod_small by lia. reflexivity.
Qed.

(** X3.  When every coordinate lies inside its extent and the array has at
    most [2 ^ w] elements, [nd_offset] does not wrap: it returns the Horner
    fold itself, and that index is smaller than the number of elements of
    the array. *)
Theorem nd_offset_within_volume (w x1 extent1 x2 last_extent : Z)
  (dims : list (Z * Z)) :
  in_extents x1 ((extent1, x2) :: dims) last_extent ->
  volume ((extent1, x2) :: dims) last_extent <= 2 ^ w ->
  nd_offset w x1 extent1 x2 (pack dims)
  = Ok (horner x1 ((extent1, x2) :: dims)) /\
  0 <= horner x1 ((extent1, x2) :: dims)
    < volume ((extent1, x2) :: dims) last_extent.
Proof.
  intros Hin Hvol. split.
  - apply (nd_offset_no_wrap w x1 extent1 x2 last_extent dims Hin Hvol).
  - apply horner_bound. exact Hin.
Qed.

Lemma nd_offset_within_volume_witness :
  nd_offset 64 1 4 2 [3; 1] = Ok (horner 1 [(4, 2); (3, 1)]) /\
  0 <= horner 1 [(4, 2); (3, 1)] < volume [(4, 2); (3, 1)] 5.
Proof.
  apply (nd_offset_within_volume 64 1 4 2 5 [(3, 1)]).
  - cbn. lia.
  - vm_compute. discriminate.
Defined.

(** X4.  Inside such an array [nd_offset] is injective: two coordinate
    tuples of an array with the same extents that get the same offset are
    the same tuple, so distinct elements never share an index. *)
Theorem nd_offset_injective (w extent1 last_extent x1 x2 y1 y2 : Z)
  (dims dims' : list (Z * Z)) :
  map fst dims = map fst dims' ->
  in_extents x1 ((extent1, x2) :: dims) last_extent ->
  in_extents y1 ((extent1, y2) :: dims') last_extent ->
  volume ((extent1, x2) :: dims) last_extent <= 2 ^ w ->
  nd_offset w x1 extent1 x2 (pack dims) = nd_offset w y1 extent1 y2 (pack dims') ->
  x1 = y1 /\ x2 = y2 /\ dims = dims'.
Proof.
  intros Hext Hx Hy Hvol Heq.
  assert (Hvol' : volume ((extent1, y2) :: dims') last_extent <= 2 ^ w).
  { revert Hvol. cbn [volume].
    assert (Hsame : forall d d' : list (Z * Z), map fst d = map fst d' ->
                      volume d last_extent = volume d' last_extent).
    { induction d as [| [e a] d IHd]; intros [| [e' a'] d'] Hd;
        try discriminate Hd; [reflexivity |].
      cbn in Hd |- *. injection Hd as -> Hd. rewrite (IHd d' Hd). reflexivity. }
    rewrite (Hsame dims dims' Hext). exact (fun H => H). }
  rewrite (nd_offset_no_wrap w x1 extent1 x2 last_extent dims Hx Hvol) in Heq.
  rewrite (nd_offset_no_wrap w y1 extent1 y2 last_extent dims' Hy Hvol') in Heq. injection Heq as Heq.
  assert (Hext' : map fst ((extent1, x2) :: dims)
                  = map fst ((extent1, y2) :: dims'))
    by (cbn; rewrite Hext; reflexivity).
  destruct (horner_injective _ _ _ _ _ Hext' Hx Hy Heq) as [H1 Hd].
  injection Hd as H2 Hd. repeat split; assumption.
Qed.

Lemma nd_offset_injective_witness :
  (1 : Z) = 1 /\ (2 : Z) = 2 /\ [(3, 1)] = [(3, 1)].
Proof.
  apply (nd_offset_injective 64 4 5 1 2 1 2 [(3, 1)] [(3, 1)]).
  - reflexivity.
  - cbn. lia.
  - cbn. lia.
  - vm_compute. discriminate.
  - reflexivity.
Defined.

(** * Further properties of [sum] *)

Section SumMore.

Variable double : Type.
Variable dzero : double.
Variable dadd : double -> double -> double.

Lemma sum_body_next mat NC c r val r' val' :
  sum_body double dadd mat NC c r val = Ok (r', val') -> r' = r + 1.
Proof.
  unfold sum_body, nd_offset, nd_offset_internal, bind, index, int_add.
  destruct (nth_error mat _); [| discriminate].
  destruct (in_intb (r + 1)); [| discriminate].
  intros H. injection H as <- _. reflexivity.
Qed.

(** X5.  The loop can be stopped at any row [M] between [r0] and [NR] and
    resumed there with the value accumulated so far: running it over
    [r0, M) and then over [M, NR) gives the result of running it over
    [r0, NR), undefined behaviour included. *)
Theorem sum_resumes_at_row (mat : list double) (NR NC r0 c M : Z) :
  r0 <= M <= NR ->
  sum double dzero dadd mat NR NC r0 c
  = (v <- sum double dzero dadd mat M NC r0 c ;;
     sum_loop double dadd mat NR NC c M v).
Proof.
  intros HM. unfold sum. generalize dzero as val.
  remember (Z.to_nat (M - r0)) as n eqn:Hn.
  revert r0 HM Hn. induction n as [| n IH]; intros r0 HM Hn val.
  - assert (r0 = M) by lia. subst r0.
    rewrite (sum_loop_unfold double dadd mat M NC c M val).
    destruct (Z.ltb_spec M M); [lia | reflexivity].
  - rewrite (sum_loop_unfold double dadd mat NR NC c r0 val).
    rewrite (sum_loop_unfold double dadd mat M NC c r0 val).
    destruct (Z.ltb_spec r0 NR); [| lia].
    destruct (Z.ltb_spec r0 M); [| lia].
    destruct (sum_body double dadd mat NC c r0 val) as [[r' val'] | |] eqn:Hbody;
      [| reflexivity | reflexivity].
    apply sum_body_next in Hbody. subst r'.
    apply IH; lia.
Qed.

(** From here on [sum] is called on [int]s with a column of the matrix. *)
Variables NR NC c : Z.
Hypothesis NR_int : in_int NR.
Hypothesis NC_int : in_int NC.
Hypothesis c_range : 0 <= c < NC.

Lemma sum_body_read mat r val :
  0 <= r < NR ->
  sum_body double dadd mat NC c r val
  = match nth_error mat (Z.to_nat (c + r * NC)) with
    | Some elmt => Ok (r + 1, dadd val elmt)
    | None => Undefined
    end.
Proof.
  intros Hr. unfold sum_body.
  rewrite (offset_exact unit [] NR NC c NR_int NC_int c_range r Hr).
  cbn [bind]. unfold index.
  destruct (nth_error mat (Z.to_nat (c + r * NC))); [| reflexivity].
  cbn [bind]. rewrite int_add_in_range; [reflexivity |].
  unfold in_int, INT_MIN, INT_MAX in *. lia.
Qed.

Lemma sum_loop_defined mat n : forall r val,
  Z.to_nat (NR - r) = n -> 0 <= r ->
  c + (NR - 1) * NC < Z.of_nat (length mat) ->
  is_ok (sum_loop double dadd mat NR NC c r val) = true.
Proof.
  induction n as [| n IH]; intros r val Hn Hr Hlen;
    rewrite sum_loop_unfold.
  - destruct (Z.ltb_spec r NR); [lia | reflexivity].
  - destruct (Z.ltb_spec r NR); [| lia].
    rewrite sum_body_read by lia.
    destruct (nth_error mat (Z.to_nat (c + r * NC))) eqn:Hnth.
    + apply IH; lia.
    + apply nth_error_None in Hnth.
      assert (c + r * NC <= c + (NR - 1) * NC) by nia.
      assert (0 <= c + r * NC) by nia. lia.
Qed.

Lemma sum_loop_undefined mat n : forall r val,
  Z.to_nat (NR - r) = S n -> 0 <= r ->
  Z.of_nat (length mat) <= c + (NR - 1) * NC ->
  sum_loop double dadd mat NR NC c r val = Undefined.
Proof.
  induction n as [| n IH]; intros r val Hn Hr Hlen;
    rewrite sum_loop_unfold;
    (destruct (Z.ltb_spec r NR); [| lia]);
    rewrite sum_body_read by lia;
    destruct (nth_error mat (Z.to_nat (c + r * NC))) eqn:Hnth;
    try reflexivity.
  - assert (r = NR - 1) by lia. subst r.
    assert (Hsome : nth_error mat (Z.to_nat (c + (NR - 1) * NC)) <> None)
      by (rewrite Hnth; discriminate).
    apply nth_error_Some in Hsome.
    assert (0 <= c + (NR - 1) * NC) by nia. lia.
  - apply IH; lia.
Qed.

(** X6.  For [int] arguments with [0 <= c < NC] and a non-empty row range
    [0 <= r0 < NR], [sum] has a value exactly when the matrix reaches the
    last element it reads, [mat[c + (NR - 1) * NC]]; on any shorter matrix
    the loop runs into a read past the end, however many rows it summed
    before. *)
Theorem sum_defined_iff_last_read_in_bounds (mat : list double) (r0 : Z) :
  0 <= r0 < NR ->
  (is_ok (sum double dzero dadd mat NR NC r0 c) = true <->
   c + (NR - 1) * NC < Z.of_nat (length mat)) /\
  (Z.of_nat (length mat) <= c + (NR - 1) * NC ->
   sum double dzero dadd mat NR NC r0 c = Undefined).
Proof.
  intros Hr0.
  assert (Hund : Z.of_nat (length mat) <= c + (NR - 1) * NC ->
                 sum double dzero dadd mat NR NC r0 c = Undefined).
  { intros Hlen. unfold sum.
    apply (sum_loop_undefined mat (Z.to_nat (NR - r0 - 1))); lia. }
  split; [| exact Hund].
  split.
  - intros Hok.
    destruct (Z.lt_ge_cases (c + (NR - 1) * NC) (Z.of_nat (length mat)))
      as [Hlt | Hge]; [exact Hlt |].
    rewrite (Hund Hge) in Hok. discriminate Hok.
  - intros Hlen. unfold sum.
    apply (sum_loop_defined mat (Z.to_nat (NR - r0))); lia.
Qed.

Lemma sum_loop_frame mat mat' n : forall r val,
  Z.to_nat (NR - r) = n -> 0 <= r ->
  (forall r', r <= r' < NR ->
     nth_error mat (Z.to_nat (c + r' * NC))
     = nth_error mat' (Z.to_nat (c + r' * NC))) ->
  sum_loop double dadd mat NR NC c r val
  = sum_loop double dadd mat' NR NC c r val.
Proof.
  induction n as [| n IH]; intros r val Hn Hr Hagree;
    rewrite (sum_loop_unfold double dadd mat),
            (sum_loop_unfold double dadd mat').
  - destruct (Z.ltb_spec r NR); [lia | reflexivity].
  - destruct (Z.ltb_spec r NR); [| lia].
    rewrite !sum_body_read by lia.
    rewrite <- (Hagree r) by lia.
    destruct (nth_error mat (Z.to_nat (c + r * NC))); [| reflexivity].
    apply IH; [lia | lia |].
    intros r' Hr'. apply Hagree. lia.
Qed.

(** X7.  [sum] reads nothing but column [c] in the rows [r0 <= r < NR]:
    two matrices, of whatever sizes, that have the same elements (or both
    none) at the indices [c + r * NC] of those rows give the same result. *)
Theorem sum_depends_on_column_only (mat mat' : list double) (r0 : Z) :
  0 <= r0 ->
  (forall r, r0 <= r < NR ->
     nth_error mat (Z.to_nat (c + r * NC))
     = nth_error mat' (Z.to_nat (c + r * NC))) ->
  sum double dzero dadd mat NR NC r0 c = sum double dzero dadd mat' NR NC r0 c.
Proof.
  intros Hr0 Hagree. unfold sum.
  apply (sum_loop_frame mat mat' (Z.to_nat (NR - r0))); [reflexivity | exact Hr0 |].
  exact Hagree.
Qed.

End SumMore.

Lemma sum_resumes_at_row_witness :
  sum float 0%float PrimFloat.add [1; 2; 3; 4; 5; 6]%float 3 2 0 1
  = (v <- sum float 0%float PrimFloat.add [1; 2; 3; 4; 5; 6]%float 2 2 0 1 ;;
     sum_loop float PrimFloat.add [1; 2; 3; 4; 5; 6]%float 3 2 1 2 v).
Proof.
  apply (sum_resumes_at_row float 0%float PrimFloat.add
           [1; 2; 3; 4; 5; 6]%float 3 2 0 1 2).
  lia.
Defined.

Lemma sum_defined_iff_last_read_in_bounds_witness :
  is_ok (sum float 0%float PrimFloat.add [1; 2; 3; 4; 5]%float 3 2 0 0) = true /\
  sum float 0%float PrimFloat.add [1; 2; 3; 4; 5]%float 3 2 0 1 = Undefined.
Proof.
  split.
  - apply (proj1 (sum_defined_iff_last_read_in_bounds float 0%float PrimFloat.add
                    3 2 0 ltac:(unfold in_int, INT_MIN, INT_MAX; lia)
                    ltac:(unfold in_int, INT_MIN, INT_MAX; lia) ltac:(lia)
                    [1; 2; 3; 4; 5]%float 0 ltac:(lia))).
    simpl. lia.
  - apply (proj2 (sum_defined_iff_last_read_in_bounds float 0%float PrimFloat.add
                    3 2 1 ltac:(unfold in_int, INT_MIN, INT_MAX; lia)
                    ltac:(unfold in_int, INT_MIN, INT_MAX; lia) ltac:(lia)
                    [1; 2; 3; 4; 5]%float 0 ltac:(lia))).
    simpl. lia.
Defined.

Lemma sum_depends_on_column_only_witness :
  sum float 0%float PrimFloat.add [1; 2; 3; 4; 5; 6]%float 3 2 0 1
  = sum float 0%float PrimFloat.add [9; 2; 8; 4; 7; 6; 0]%float 3 2 0 1.
Proof.
  apply (sum_depends_on_column_only float 0%float PrimFloat.add 3 2 1).
  - unfold in_int, INT_MIN, INT_MAX. lia.
  - unfold in_int, INT_MIN, INT_MAX. lia.
  - lia.
  - lia.
  - intros r Hr.
    assert (Hcases : r = 0 \/ r = 1 \/ r = 2) by lia.
    destruct Hcases as [-> | [-> | ->]]; reflexivity.
Defined.

(** * Further properties of the hierarchies and wrappers *)

Section WrapperFirstMore.

Import DevirtualizeClass.

Lemma foo_BaseCoreParent_not_ill_formed base :
  foo (BaseWrapperParent.of_Base (ActualWrapperParent.new (Some base)))
  <> IllFormed.
Proof.
  rewrite foo_BaseCoreParent.
  destruct base as [a | b]; cbn; [discriminate |].
  unfold int_add. destruct (in_intb _); discriminate.
Qed.

(** X9.  First snippet: the result of [foo] does not depend on the type
    the wrapper is instantiated with.  A wrapper over an [ACoreParent] (or a
    [BCoreParent]) and a wrapper over the same parent seen as a
    [BaseCoreParent] return the same value, which is what [create()] and
    [get()] return on the parent without any wrapper. *)
Theorem foo_independent_of_instantiation :
  (forall a : ACoreParent.t,
      foo (BaseWrapperParent.of_A (ActualWrapperParent.new (Some a)))
      = foo (BaseWrapperParent.of_Base
               (ActualWrapperParent.new (Some (BaseCoreParent.of_ACoreParent a))))) /\
  (forall b : BCoreParent.t,
      foo (BaseWrapperParent.of_B (ActualWrapperParent.new (Some b)))
      = foo (BaseWrapperParent.of_Base
               (ActualWrapperParent.new (Some (BaseCoreParent.of_BCoreParent b))))) /\
  (forall base : BaseCoreParent.t,
      foo (BaseWrapperParent.of_Base (ActualWrapperParent.new (Some base)))
      = fst (BaseCoreChild.get (BaseCoreParent.create base))).
Proof.
  split; [| split].
  - intros a. rewrite foo_BaseCoreParent. reflexivity.
  - intros b. rewrite foo_BaseCoreParent. reflexivity.
  - apply foo_BaseCoreParent.
Qed.

(** X10.  First snippet: the handles are dereferenced unchecked.
    [initialize()] on a wrapper that holds an empty [std::shared_ptr] is
    undefined, and so is [bar] as soon as one of its three handles is
    empty. *)
Theorem bar_needs_all_handles (base : option BaseCoreParent.t)
  (abase : option ACoreParent.t) (bbase : option BCoreParent.t) :
  base = None \/ abase = None \/ bbase = None ->
  bar base abase bbase = Undefined /\
  ActualWrapperParent.initialize
    (ActualWrapperParent.new (@None ACoreParent.t)) = Undefined /\
  ActualWrapperParent.initialize
    (ActualWrapperParent.new (@None BCoreParent.t)) = Undefined /\
  ActualWrapperParent.initialize
    (ActualWrapperParent.new (@None BaseCoreParent.t)) = Undefined.
Proof.
  intros Hnull. split; [| repeat split].
  destruct base as [base |]; [| reflexivity].
  unfold bar.
  pose proof (foo_BaseCoreParent_not_ill_formed base) as Hbase.
  destruct (foo (BaseWrapperParent.of_Base (ActualWrapperParent.new (Some base))))
    as [x | |]; [| reflexivity | contradiction].
  cbn [bind].
  destruct abase as [[p] |]; [| reflexivity].
  rewrite foo_ACoreParent. cbn [bind].
  destruct bbase as [bbase |].
  - destruct Hnull as [H | [H | H]]; discriminate H.
  - unfold int_add. destruct (in_intb (x + p)); reflexivity.
Qed.

(** X11.  First snippet: [bar] adds its three results from left to right
    in [int].  With a [BCoreParent] holding [x] behind [base] it returns
    [x + 20 + p + q + 20] when every intermediate sum fits.  The partial sum
    of the first two addends must fit by itself: if it exceeds [INT_MAX],
    [bar] is undefined whatever the third addend is. *)
Theorem bar_adds_left_to_right (x p q : Z) :
  (in_int (x + 20) -> in_int (q + 20) -> in_int (x + 20 + p) ->
   in_int (x + 20 + p + (q + 20)) ->
   bar (Some (BaseCoreParent.of_BCoreParent (BCoreParent.new x)))
     (Some (ACoreParent.new p)) (Some (BCoreParent.new q))
   = Ok (x + p + q + 40)) /\
  (INT_MAX < x + p ->
   bar (Some (BaseCoreParent.of_ACoreParent (ACoreParent.new x)))
     (Some (ACoreParent.new p)) (Some (BCoreParent.new q))
   = Undefined).
Proof.
  split.
  - intros Hx Hq Hxp Hsum.
    rewrite (bar_first_snippet _ p q (x + 20)); try assumption.
    + f_equal. ring.
    + cbn. apply int_add_in_range. exact Hx.
  - intros Hover. unfold bar.
    rewrite foo_BaseCoreParent, foo_ACoreParent. cbn [BaseCoreParent.create
      ACoreParent.create BaseCoreChild.get ACoreChild.get fst bind
      ACoreParent.my_payload ACoreChild.payload].
    rewrite (int_add_overflow x p Hover). reflexivity.
Qed.

End WrapperFirstMore.

Section WrapperExactMore.

Import DevirtualizeClassExact.

(** X12.  Second snippet: a wrapper child built on the exact type returns
    what virtual dispatch returns.  For each of the three choices of
    [Core_], [wrapped_get()] on the child constructed from a core parent
    (statically bound [create_exact()] and [get()]) equals the virtual
    [get()] on the child that the virtual [create()] makes for the same
    parent seen as a [BaseCoreParent]. *)
Theorem exact_wrapper_agrees_with_virtual_dispatch :
  (forall a : ACoreParent.t,
      fst (ActualWrapperChild.wrapped_get (ActualWrapperChild.new a))
      = fst (BaseCoreChild.get (BaseCoreParent.create (to_base a)))) /\
  (forall b : BCoreParent.t,
      fst (ActualWrapperChild.wrapped_get (ActualWrapperChild.new b))
      = fst (BaseCoreChild.get (BaseCoreParent.create (to_base b)))) /\
  (forall base : BaseCoreParent.t,
      fst (ActualWrapperChild.wrapped_get (ActualWrapperChild.new base))
      = fst (BaseCoreChild.get (BaseCoreParent.create (to_base base)))).
Proof.
  split; [| split].
  - intros a. reflexivity.
  - intros b. reflexivity.
  - intros [a | b]; reflexivity.
Qed.

End WrapperExactMore.

Lemma bar_needs_all_handles_witness :
  DevirtualizeClass.bar None
    (Some (DevirtualizeClass.ACoreParent.new 5))
    (Some (DevirtualizeClass.BCoreParent.new 5)) = Undefined.
Proof.
  apply (bar_needs_all_handles None
           (Some (DevirtualizeClass.ACoreParent.new 5))
           (Some (DevirtualizeClass.BCoreParent.new 5))).
  left. reflexivity.
Defined.

Lemma bar_adds_left_to_right_witness :
  DevirtualizeClass.bar
    (Some (DevirtualizeClass.BaseCoreParent.of_BCoreParent
             (DevirtualizeClass.BCoreParent.new 1)))
    (Some (DevirtualizeClass.ACoreParent.new 5))
    (Some (DevirtualizeClass.BCoreParent.new 5)) = Ok (1 + 5 + 5 + 40) /\
  DevirtualizeClass.bar
    (Some (DevirtualizeClass.BaseCoreParent.of_ACoreParent
             (DevirtualizeClass.ACoreParent.new 2147483647)))
    (Some (DevirtualizeClass.ACoreParent.new 1))
    (Some (DevirtualizeClass.BCoreParent.new (-100))) = Undefined.
Proof.
  split.
  - apply (proj1 (bar_adds_left_to_right 1 5 5));
      unfold in_int, INT_MIN, INT_MAX; lia.
  - apply (proj2 (bar_adds_left_to_right 2147483647 1 (-100))).
    unfold INT_MAX. lia.
Defined.

(** * Dimensions added and removed *)

Lemma pack_app dims dims' : pack (dims ++ dims') = pack dims ++ pack dims'.
Proof. unfold pack. apply flat_map_app. Qed.

Lemma horner_trailing_zero dims : forall x extent,
  horner x (dims ++ [(extent, 0)]) = horner x dims.
Proof.
  induction dims as [| [e x'] dims IH]; intros x extent; cbn.
  - ring.
  - rewrite IH. reflexivity.
Qed.

(** X13.  The offset of an index is its first coordinate plus [extent1]
    times the offset of the index with the first dimension dropped, in the
    arithmetic of [Size_]: [nd_offset(x1, extent1, x2, extent2, x3, ...)] is
    [x1 + extent1 * nd_offset(x2, extent2, x3, ...)]. *)
Theorem nd_offset_peels_first_dimension (w x1 extent1 x2 extent2 x3 : Z)
  (dims : list (Z * Z)) :
  exists inner,
    nd_offset w x2 extent2 x3 (pack dims) = Ok inner /\
    nd_offset w x1 extent1 x2 (extent2 :: x3 :: pack dims)
    = Ok (Size_add w (to_Size w x1) (Size_mul w (to_Size w extent1) inner)).
Proof.
  exists (to_Size w (horner x2 ((extent2, x3) :: dims))).
  split; [apply nd_offset_pack |].
  change (extent2 :: x3 :: pack dims) with (pack ((extent2, x3) :: dims)).
  rewrite nd_offset_pack, Size_mul_to_Size, Size_add_to_Size. reflexivity.
Qed.

(** X14.  An index keeps its offset when the array gets one more, last
    dimension and the index is placed at coordinate 0 of it:
    [nd_offset(x1, ..., xn, extent_n, 0) = nd_offset(x1, ..., xn)]. *)
Theorem nd_offset_trailing_zero (w x1 extent1 x2 extent : Z)
  (dims : list (Z * Z)) :
  nd_offset w x1 extent1 x2 (pack dims ++ [extent; 0])
  = nd_offset w x1 extent1 x2 (pack dims).
Proof.
  change [extent; 0] with (pack [(extent, 0)]).
  rewrite <- pack_app, !nd_offset_pack.
  change ((extent1, x2) :: dims ++ [(extent, 0)])
    with (((extent1, x2) :: dims) ++ [(extent, 0)]).
  rewrite horner_trailing_zero. reflexivity.
Qed.

(** X15.  Second snippet: the instantiation with [Core_ = BaseCoreParent]
    needs no conversion and works.  [foo] on such a wrapper returns what the
    virtual [create()] and [get()] give on the wrapped parent; with an empty
    handle it is undefined. *)
Theorem exact_foo_on_BaseCoreParent :
  (forall base : DevirtualizeClassExact.BaseCoreParent.t,
      DevirtualizeClassExact.foo
        (DevirtualizeClassExact.BaseWrapperParent.of_Base
           (DevirtualizeClassExact.ActualWrapperParent.new (Some base)))
      = fst (DevirtualizeClassExact.BaseCoreChild.get
               (DevirtualizeClassExact.BaseCoreParent.create base))) /\
  (forall p,
      DevirtualizeClassExact.foo
        (DevirtualizeClassExact.BaseWrapperParent.of_Base
           (DevirtualizeClassExact.ActualWrapperParent.new
              (Some (DevirtualizeClassExact.BaseCoreParent.of_ACoreParent
                       (DevirtualizeClassExact.ACoreParent.new p))))) = Ok p) /\
  (forall q,
      in_int (q + 20) ->
      DevirtualizeClassExact.foo
        (DevirtualizeClassExact.BaseWrapperParent.of_Base
           (DevirtualizeClassExact.ActualWrapperParent.new
              (Some (DevirtualizeClassExact.BaseCoreParent.of_BCoreParent
                       (DevirtualizeClassExact.BCoreParent.new q)))))
      = Ok (q + 20)) /\
  DevirtualizeClassExact.foo
    (DevirtualizeClassExact.BaseWrapperParent.of_Base
       (DevirtualizeClassExact.ActualWrapperParent.new
          (@None DevirtualizeClassExact.BaseCoreParent.t))) = Undefined.
Proof.
  split; [exact exact_foo_BaseCoreParent |].
  split; [reflexivity |]. split; [| reflexivity].
  intros q Hq. rewrite exact_foo_BaseCoreParent. cbn.
  apply int_add_in_range. exact Hq.
Qed.

Lemma exact_foo_on_BaseCoreParent_witness :
  DevirtualizeClassExact.foo
    (DevirtualizeClassExact.BaseWrapperParent.of_Base
       (DevirtualizeClassExact.ActualWrapperParent.new
          (Some (DevirtualizeClassExact.BaseCoreParent.of_BCoreParent
                   (DevirtualizeClassExact.BCoreParent.new 5)))))
  = Ok (5 + 20).
Proof.
  apply (proj1 (proj2 (proj2 exact_foo_on_BaseCoreParent)) 5).
  unfold in_int, INT_MIN, INT_MAX. lia.
Defined.
